(** * luxfi/keychain: the ledger keychain and its signers

    A shallow embedding of [keychain.go] (package [keychain]) and of the
    deterministic stand-in device of [keychain_test.go], followed by the
    properties of construction, lookup and signing.

    Conventions of the embedding:
    - a Go interface value of type [Ledger] is a record of the device's
      methods, each a state transformer on the device state [D];
    - a Go function is a computation [Go D R] over the device state and the
      log of the calls made to the device so far: it either returns a value
      or panics, and in both cases hands back the state and the log it left
      behind;
    - Go's [error] is [option errorValue], with [None] for [nil]; a result
      [(T, error)] is a pair, as in the source, so that "value and error"
      are both visible;
    - [map[ids.ShortID]uint32] is a [gmap], [set.Set[ids.ShortID]] a [gset],
      a slice a [list], [ids.ShortID] (a [[20]byte]) a [vec byte 20]. *)

From Stdlib Require Import NArith Strings.Byte.
From stdpp Require Import gmap strings list fin_maps fin_sets vector.

#[local] Set Warnings "-clear-no-such-hyp".

(** ** Go values *)

Abbreviation byte := Byte.byte.

#[global] Instance byte_eq_dec : EqDecision byte := Byte.byte_eq_dec.

#[global] Program Instance byte_countable : Countable byte :=
  inj_countable Byte.to_N Byte.of_N _.
Next Obligation. intros x. apply Byte.of_to_N. Qed.

(** [[]byte] *)
Abbreviation bytes := (list byte).

(** [uint32]: the code only stores, compares and forwards indices; it does
    no arithmetic on them. *)
Abbreviation uint32 := N.

(** [ids.ShortID], a [[20]byte] compared by value. *)
Abbreviation ShortID := (vec byte 20).

(** Keys of a Go map must be hashable; here they must be countable, by an
    encoding that computes. *)
Definition ShortID_of_list (l : list byte) : option ShortID :=
  match decide (20 = length l) with
  | left H => Some (eq_rect _ (vec byte) (list_to_vec l) _ (eq_sym H))
  | right _ => None
  end.

#[global] Program Instance ShortID_countable : Countable ShortID :=
  inj_countable vec_to_list ShortID_of_list _.
Next Obligation.
  intros v. unfold ShortID_of_list.
  destruct (decide (20 = length (vec_to_list v))) as [Hn|Hn].
  - rewrite list_to_vec_to_list.
    rewrite (proof_irrel (eq_sym (length_vec_to_list v)) Hn).
    by destruct Hn.
  - by rewrite length_vec_to_list in Hn.
Qed.

(** The values of Go's [error] interface that the package can see: its four
    exported sentinels (lines 15-20) and whatever else a device returns. A
    device lives in another package and may return any of them, the exported
    sentinels included. *)
Inductive errorValue : Type :=
| ErrInvalidIndicesLength
| ErrInvalidNumAddrsToDerive
| ErrInvalidNumAddrsDerived
| ErrInvalidNumSignatures
| ErrDevice (msg : string).

#[global] Instance errorValue_eq_dec : EqDecision errorValue.
Proof. solve_decision. Defined.

(** [error]; [None] is [nil]. *)
Abbreviation error := (option errorValue).

(** [err.Error()] *)
Definition Error (e : errorValue) : string :=
  match e with
  | ErrInvalidIndicesLength => "number of indices should be greater than 0"
  | ErrInvalidNumAddrsToDerive =>
      "number of addresses to derive should be greater than 0"
  | ErrInvalidNumAddrsDerived => "incorrect number of ledger derived addresses"
  | ErrInvalidNumSignatures => "incorrect number of signatures"
  | ErrDevice msg => msg
  end.

(** ** Go computations over a device *)

(** A call received by the device, with its arguments. *)
Inductive Call : Type :=
| CallAddress (displayHRP : string) (addressIndex : uint32)
| CallSignHash (hash : bytes) (addressIndex : uint32)
| CallSign (hash : bytes) (addressIndex : uint32)
| CallSignTransaction (rawUnsignedHash : bytes) (addressIndices : list uint32)
| CallGetAddresses (addressIndices : list uint32)
| CallDisconnect.

Inductive outcome (R : Type) : Type :=
| Returns (r : R)
| Panics.
Arguments Returns {R} r.
Arguments Panics {R}.

Definition Go (D R : Type) : Type :=
  D * list Call → outcome R * (D * list Call).

Definition ret {D R : Type} (r : R) : Go D R := λ w, (Returns r, w).

Definition bind {D A B : Type} (m : Go D A) (k : A → Go D B) : Go D B :=
  λ w, match m w with
       | (Returns a, w') => k a w'
       | (Panics, w') => (Panics, w')
       end.

(** The one way to reach the device: run its method [f] on the device state
    and enter the call [c] in the log. *)
Definition call {D R : Type} (c : Call) (f : D → R * D) : Go D R :=
  λ '(d, log), let '(r, d') := f d in (Returns r, (d', log ++ [c])).

(** [s[i]] on a slice: a run-time panic when [i] is out of range. *)
Definition index {D A : Type} (s : list A) (i : nat) : Go D A :=
  λ w, match s !! i with
       | Some x => (Returns x, w)
       | None => (Panics, w)
       end.

#[global] Instance Go_ret {D : Type} : MRet (Go D) := λ _ r, ret r.
#[global] Instance Go_bind {D : Type} : MBind (Go D) := λ _ _ k m, bind m k.

(** ** [type Ledger interface] (lines 41-48)

    A value of [Ledger.t] is a device that is there and whose methods
    return: the [nil] interface value and a method that panics are not
    among them, so a statement here speaks of a caller that passes a device
    and of device calls that come back. *)

Module Ledger.
Record t (D : Type) : Type := Build {
  Address : string → uint32 → D → (ShortID * error) * D;
  SignHash : bytes → uint32 → D → (bytes * error) * D;
  Sign : bytes → uint32 → D → (bytes * error) * D;
  SignTransaction : bytes → list uint32 → D → (list bytes * error) * D;
  GetAddresses : list uint32 → D → (list ShortID * error) * D;
  Disconnect : D → error * D;
}.
Arguments Build {D}.
Arguments Address {D}.
Arguments SignHash {D}.
Arguments Sign {D}.
Arguments SignTransaction {D}.
Arguments GetAddresses {D}.
Arguments Disconnect {D}.
End Ledger.

(** Method calls on a [Ledger] value, as the keychain writes them:
    [ledger.GetAddresses(indices)], [l.ledger.SignHash(hash, l.idx)] and
    [l.ledger.Sign(hash, l.idx)]. *)
Definition callGetAddresses {D : Type} (ledger : Ledger.t D)
    (addressIndices : list uint32) : Go D (list ShortID * error) :=
  call (CallGetAddresses addressIndices)
       (Ledger.GetAddresses ledger addressIndices).

Definition callSignHash {D : Type} (ledger : Ledger.t D)
    (hash : bytes) (addressIndex : uint32) : Go D (bytes * error) :=
  call (CallSignHash hash addressIndex)
       (Ledger.SignHash ledger hash addressIndex).

Definition callSign {D : Type} (ledger : Ledger.t D)
    (hash : bytes) (addressIndex : uint32) : Go D (bytes * error) :=
  call (CallSign hash addressIndex) (Ledger.Sign ledger hash addressIndex).

(** ** [type ledgerSigner struct] and its methods (lines 60-64, 114-124) *)

Module ledgerSigner.
Record t (D : Type) : Type := Build {
  ledger : Ledger.t D;
  idx : uint32;
  addr : ShortID;
}.
Arguments Build {D}.
Arguments ledger {D}.
Arguments idx {D}.
Arguments addr {D}.

Definition SignHash {D : Type} (l : t D) (hash : bytes)
  : Go D (bytes * error) :=
  callSignHash (ledger l) hash (idx l).

Definition Sign {D : Type} (l : t D) (hash : bytes)
  : Go D (bytes * error) :=
  callSign (ledger l) hash (idx l).

Definition Address {D : Type} (l : t D) : Go D ShortID :=
  ret (addr l).
End ledgerSigner.

(** ** [type ledgerKeychain struct] and its methods (lines 52-56, 98-112) *)

Module ledgerKeychain.
Record t (D : Type) : Type := Build {
  ledger : Ledger.t D;
  addrs : gset ShortID;
  addrToIdx : gmap ShortID uint32;
}.
Arguments Build {D}.
Arguments ledger {D}.
Arguments addrs {D}.
Arguments addrToIdx {D}.

(** [idx, ok := l.addrToIdx[addr]]; the [nil] signer of a miss is [None]. *)
Definition Get {D : Type} (l : t D) (addr : ShortID)
  : Go D (option (ledgerSigner.t D) * bool) :=
  match addrToIdx l !! addr with
  | None => ret (None, false)
  | Some idx =>
      ret (Some {| ledgerSigner.ledger := ledger l;
                   ledgerSigner.idx := idx;
                   ledgerSigner.addr := addr |}, true)
  end.

Definition Addresses {D : Type} (l : t D) : Go D (gset ShortID) :=
  ret (addrs l).
End ledgerKeychain.

(** ** [NewLedgerKeychain] (lines 70-96) *)

(** The loop of lines 86-89, entered at position [i] of [addresses] with
    [rest] still to visit:
    [addrToIdx[addr] = indices[i]; addrs.Add(addr)]. *)
Fixpoint rangeAddresses {D : Type} (i : nat) (rest : list ShortID)
    (indices : list uint32)
    (addrToIdx : gmap ShortID uint32) (addrs : gset ShortID)
  : Go D (gmap ShortID uint32 * gset ShortID) :=
  match rest with
  | [] => ret (addrToIdx, addrs)
  | addr :: rest' =>
      idx ← index indices i;
      rangeAddresses (S i) rest' indices
        (<[addr := idx]> addrToIdx) (addrs ∪ {[addr]})
  end.

Definition NewLedgerKeychain {D : Type}
    (ledger : Ledger.t D) (indices : list uint32)
  : Go D (option (ledgerKeychain.t D) * error) :=
  if decide (length indices = 0) then
    ret (None, Some ErrInvalidIndicesLength)
  else
    '(addresses, err) ← callGetAddresses ledger indices;
    match err with
    | Some _ => ret (None, err)
    | None =>
        if decide (length addresses ≠ length indices) then
          ret (None, Some ErrInvalidNumAddrsDerived)
        else
          '(addrToIdx, addrs) ← rangeAddresses 0 addresses indices ∅ ∅;
          ret (Some {| ledgerKeychain.ledger := ledger;
                       ledgerKeychain.addrs := addrs;
                       ledgerKeychain.addrToIdx := addrToIdx |}, None)
    end.

(** [var NewLedgerKeychainFromIndices = NewLedgerKeychain] (line 68) *)
Definition NewLedgerKeychainFromIndices {D : Type} := @NewLedgerKeychain D.

(** ** The stand-in device of [keychain_test.go] (lines 13-65) *)

(** [byte(addressIndex)]: the conversion keeps the low eight bits. *)
Definition byte_of_uint32 (n : uint32) : byte :=
  default x00 (Byte.of_N (n `mod` 256)%N).

(** [var addr ids.ShortID]: the zero value of the array. *)
Definition zeroShortID : ShortID := vreplicate 20 x00.

Module mockLedger.
Record t : Type := Build {
  addresses : gmap uint32 ShortID;
}.

Definition newMockLedger : t := {| addresses := ∅ |}.

(** Lines 28-30, "generate a deterministic address for the index":
    [var addr ids.ShortID; addr[0] = byte(addressIndex)]. *)
Definition generate (addressIndex : uint32) : ShortID :=
  vinsert 0%fin (byte_of_uint32 addressIndex) zeroShortID.

Definition Address (_ : string) (addressIndex : uint32) (m : t)
  : (ShortID * error) * t :=
  match addresses m !! addressIndex with
  | Some addr => ((addr, None), m)
  | None =>
      let addr := generate addressIndex in
      ((addr, None), {| addresses := <[addressIndex := addr]> (addresses m) |})
  end.

(** The loop of lines 37-43: [addrs[i] = addr] on the slice made at line 36,
    with the early [return nil, err]. *)
Fixpoint rangeIndices (i : nat) (rest : list uint32) (addrs : list ShortID)
    (m : t) : (list ShortID * error) * t :=
  match rest with
  | [] => ((addrs, None), m)
  | idx :: rest' =>
      let '((addr, err), m') := Address "" idx m in
      match err with
      | Some _ => (([], err), m')
      | None => rangeIndices (S i) rest' (<[i := addr]> addrs) m'
      end
  end.

Definition GetAddresses (addressIndices : list uint32) (m : t)
  : (list ShortID * error) * t :=
  rangeIndices 0 addressIndices
    (replicate (length addressIndices) zeroShortID) m.

Definition SignHash (_ : bytes) (_ : uint32) (m : t) : (bytes * error) * t :=
  ((String.list_byte_of_string "mock-hash-signature", None), m).

Definition Sign (_ : bytes) (_ : uint32) (m : t) : (bytes * error) * t :=
  ((String.list_byte_of_string "mock-signature", None), m).

Definition SignTransaction (_ : bytes) (addressIndices : list uint32) (m : t)
  : (list bytes * error) * t :=
  ((replicate (length addressIndices)
      (String.list_byte_of_string "mock-tx-signature"), None), m).

Definition Disconnect (m : t) : error * t := (None, m).

(** [*mockLedger] as a [Ledger]. *)
Definition ledger : Ledger.t t :=
  {| Ledger.Address := Address;
     Ledger.SignHash := SignHash;
     Ledger.Sign := Sign;
     Ledger.SignTransaction := SignTransaction;
     Ledger.GetAddresses := GetAddresses;
     Ledger.Disconnect := Disconnect |}.
End mockLedger.

(** ** A device with canned answers

    The smallest [Ledger]: it has no state and answers every call with the
    answer it was built with. It stands for a device that fails, or that
    returns the wrong number of addresses. *)

Module cannedLedger.
Record answers : Type := Answers {
  getAddresses : list ShortID * error;
  signHash : bytes * error;
  sign : bytes * error;
}.

Definition ledger (a : answers) : Ledger.t unit :=
  {| Ledger.Address := λ _ _ d, ((zeroShortID, None), d);
     Ledger.SignHash := λ _ _ d, (signHash a, d);
     Ledger.Sign := λ _ _ d, (sign a, d);
     Ledger.SignTransaction := λ _ _ d, (([], None), d);
     Ledger.GetAddresses := λ _ d, (getAddresses a, d);
     Ledger.Disconnect := λ d, (None, d) |}.
End cannedLedger.

(** ** Vocabulary of the statements *)

(** [m] returns [r] whatever the device state and the log, and leaves both
    as it found them: no device call, no effect. *)
Definition Pure {D R : Type} (m : Go D R) (r : R) : Prop :=
  ∀ w, m w = (Returns r, w).

(** Enter a pair of address and index in a map, over any entry the address
    had. *)
Definition pairInto (m : gmap ShortID uint32) (p : ShortID * uint32)
  : gmap ShortID uint32 :=
  <[p.1 := p.2]> m.

(** The address→index mapping in the words of the specification: go through
    the returned addresses in order, pair the i-th address with the i-th
    index, and let a later pair replace an earlier one with the same
    address. *)
Definition inOrderPairing (addresses : list ShortID) (indices : list uint32)
  : gmap ShortID uint32 :=
  foldl pairInto ∅ (zip addresses indices).

(** The keychain that lines 91-95 build from what the device returned. *)
Definition keychainOf {D : Type} (ledger : Ledger.t D)
    (addresses : list ShortID) (indices : list uint32) : ledgerKeychain.t D :=
  {| ledgerKeychain.ledger := ledger;
     ledgerKeychain.addrs := list_to_set addresses;
     ledgerKeychain.addrToIdx := inOrderPairing addresses indices |}.

(** The four ways out of the constructor (lines 72, 77, 81 and 91), started
    on device state [d] with log [log]. *)
Inductive constructed {D : Type} (ledger : Ledger.t D)
    (indices : list uint32) (d : D) (log : list Call)
  : outcome (option (ledgerKeychain.t D) * error) * (D * list Call) → Prop :=
| constructed_empty :
    indices = [] →
    constructed ledger indices d log
      (Returns (None, Some ErrInvalidIndicesLength), (d, log))
| constructed_device_error addresses e d' :
    indices ≠ [] →
    Ledger.GetAddresses ledger indices d = ((addresses, Some e), d') →
    constructed ledger indices d log
      (Returns (None, Some e), (d', log ++ [CallGetAddresses indices]))
| constructed_mismatch addresses d' :
    indices ≠ [] →
    Ledger.GetAddresses ledger indices d = ((addresses, None), d') →
    length addresses ≠ length indices →
    constructed ledger indices d log
      (Returns (None, Some ErrInvalidNumAddrsDerived),
       (d', log ++ [CallGetAddresses indices]))
| constructed_success addresses d' :
    indices ≠ [] →
    Ledger.GetAddresses ledger indices d = ((addresses, None), d') →
    length addresses = length indices →
    constructed ledger indices d log
      (Returns (Some (keychainOf ledger addresses indices), None),
       (d', log ++ [CallGetAddresses indices])).

(** [i] is the last position of [addresses] that holds [a]. *)
Definition lastAt (addresses : list ShortID) (a : ShortID) (i : nat) : Prop :=
  addresses !! i = Some a ∧ ∀ j, i < j → addresses !! j ≠ Some a.

(** ** Runs used as examples

    The runs of [keychain_test.go] on a fresh stand-in device, and one with
    two indices that the stand-in maps to one address ([byte(256) = 0]). *)

Definition answerOf (indices : list uint32)
  : (list ShortID * error) * mockLedger.t :=
  mockLedger.GetAddresses indices mockLedger.newMockLedger.

Definition keychainOfMock (indices : list uint32)
  : ledgerKeychain.t mockLedger.t :=
  keychainOf mockLedger.ledger (answerOf indices).1.1 indices.

(** A device that returns two addresses whatever it is asked. *)
Definition twoAddresses : cannedLedger.answers :=
  {| cannedLedger.getAddresses :=
       ([mockLedger.generate 0; mockLedger.generate 1], None);
     cannedLedger.signHash := ([], None);
     cannedLedger.sign := ([], None) |}.

(** A device that fails every call with an error of its own. *)
Definition disconnected : cannedLedger.answers :=
  {| cannedLedger.getAddresses := ([], Some (ErrDevice "device disconnected"));
     cannedLedger.signHash := ([], Some (ErrDevice "device disconnected"));
     cannedLedger.sign := ([], Some (ErrDevice "device disconnected")) |}.

(** A device that fails every call with the package's own exported
    [ErrInvalidNumSignatures]. *)
Definition miscounting : cannedLedger.answers :=
  {| cannedLedger.getAddresses := ([], Some ErrInvalidNumSignatures);
     cannedLedger.signHash := ([], Some ErrInvalidNumSignatures);
     cannedLedger.sign := ([], Some ErrInvalidNumSignatures) |}.

(** [unknownAddr[0] = 99] (keychain_test.go, lines 104-105) *)
Definition unknownAddr : ShortID := vinsert 0%fin x63 zeroShortID.

(** The invariant of the stand-in's cache [m.addresses]: line 31 is its
    only write, so an index has no other address than the one generated
    for it. *)
Definition cacheConsistent (m : mockLedger.t) : Prop :=
  ∀ i a, mockLedger.addresses m !! i = Some a → a = mockLedger.generate i.

(** The state in which the stand-in is left by a call. *)
Definition mockAfter (m : mockLedger.t) (c : Call) : mockLedger.t :=
  match c with
  | CallAddress hrp i => (Ledger.Address mockLedger.ledger hrp i m).2
  | CallSignHash h i => (Ledger.SignHash mockLedger.ledger h i m).2
  | CallSign h i => (Ledger.Sign mockLedger.ledger h i m).2
  | CallSignTransaction raw ixs =>
      (Ledger.SignTransaction mockLedger.ledger raw ixs m).2
  | CallGetAddresses ixs => (Ledger.GetAddresses mockLedger.ledger ixs m).2
  | CallDisconnect => (Ledger.Disconnect mockLedger.ledger m).2
  end.

(** * Properties *)

(** ** The loop and the map it builds *)

Section pairing.
Implicit Types (m : gmap ShortID uint32) (l : list (ShortID * uint32)).
Implicit Types (a : ShortID) (x : uint32).

Lemma foldl_ins_notin l m a :
  a ∉ l.*1 → foldl pairInto m l !! a = m !! a.
Proof.
  revert m. induction l as [|[b y] l IH]; intros m Hnotin; [done|].
  apply not_elem_of_cons in Hnotin as [Hne Hnotin]. simpl in *.
  rewrite IH by done. unfold pairInto. by rewrite lookup_insert_ne.
Qed.

Lemma foldl_ins_last l m i a x :
  l !! i = Some (a, x) →
  (∀ j y, i < j → l !! j ≠ Some (a, y)) →
  foldl pairInto m l !! a = Some x.
Proof.
  revert m i. induction l as [|p l IH]; intros m i Hi Hlast; [done|].
  destruct i as [|i]; simpl in *.
  - simplify_eq. rewrite foldl_ins_notin.
    { unfold pairInto. by rewrite lookup_insert_eq. }
    intros Hin. apply list_elem_of_fmap in Hin as ([b y] & -> & Hin).
    apply list_elem_of_lookup in Hin as [j Hj].
    apply (Hlast (S j) y); [lia|done].
  - apply (IH _ i); [done|]. intros j y Hlt. apply (Hlast (S j) y). lia.
Qed.

Lemma foldl_ins_dom l m :
  dom (foldl pairInto m l) = dom m ∪ list_to_set l.*1.
Proof.
  revert m. induction l as [|[b y] l IH]; intros m; simpl.
  - set_solver.
  - rewrite IH. unfold pairInto. rewrite dom_insert_L. set_solver.
Qed.

Lemma foldl_ins_lookup_inv l m a x :
  foldl pairInto m l !! a = Some x → m !! a = Some x ∨ (a, x) ∈ l.
Proof.
  revert m. induction l as [|[b y] l IH]; intros m; simpl; [by left|].
  intros [Hm|Hin]%IH; [|right; by right].
  unfold pairInto in Hm. simpl in Hm.
  destruct (decide (b = a)) as [->|Hne].
  - rewrite lookup_insert_eq in Hm. simplify_eq. right. by left.
  - rewrite lookup_insert_ne in Hm by done. by left.
Qed.
End pairing.

(** ** Construction, case by case *)

Section construction.
Context {D : Type}.
Implicit Types (ledger : Ledger.t D) (d : D) (log : list Call).
Implicit Types (addresses : list ShortID) (indices : list uint32).

(** With an index for every remaining address the loop does not panic,
    leaves the device alone, and extends the map and the set in order. *)
Lemma rangeAddresses_returns i rest indices m s :
  i + length rest ≤ length indices →
  Pure (D := D) (rangeAddresses i rest indices m s)
    (foldl pairInto m (zip rest (drop i indices)), s ∪ list_to_set rest).
Proof.
  revert i m s. induction rest as [|a rest IH]; intros i m s Hlen w; simpl.
  - unfold ret. by rewrite (right_id_L ∅ (∪)).
  - simpl in Hlen. unfold mbind, Go_bind, bind, index.
    destruct (lookup_lt_is_Some_2 indices i) as [x Hx]; [lia|].
    rewrite Hx, (drop_S _ _ _ Hx), IH by lia. simpl.
    by rewrite (assoc_L (∪)).
Qed.

(** Without one, [indices[i]] panics. *)
Lemma rangeAddresses_panics i a rest indices m s (w : D * list Call) :
  length indices ≤ i →
  rangeAddresses i (a :: rest) indices m s w = (Panics, w).
Proof.
  intros Hlen. simpl. unfold mbind, Go_bind, bind, index.
  by rewrite lookup_ge_None_2.
Qed.

Lemma NewLedgerKeychain_empty ledger :
  Pure (NewLedgerKeychain ledger [])
    (None, Some ErrInvalidIndicesLength).
Proof. by intros w. Qed.

Lemma NewLedgerKeychain_device_error ledger indices d log addresses e d' :
  indices ≠ [] →
  Ledger.GetAddresses ledger indices d = ((addresses, Some e), d') →
  NewLedgerKeychain ledger indices (d, log)
  = (Returns (None, Some e), (d', log ++ [CallGetAddresses indices])).
Proof.
  intros Hne Hdev. unfold NewLedgerKeychain.
  destruct (decide (length indices = 0)) as [H0|_].
  - by destruct indices.
  - unfold mbind, Go_bind, bind, callGetAddresses, call. by rewrite Hdev.
Qed.

Lemma NewLedgerKeychain_mismatch ledger indices d log addresses d' :
  indices ≠ [] →
  Ledger.GetAddresses ledger indices d = ((addresses, None), d') →
  length addresses ≠ length indices →
  NewLedgerKeychain ledger indices (d, log)
  = (Returns (None, Some ErrInvalidNumAddrsDerived),
     (d', log ++ [CallGetAddresses indices])).
Proof.
  intros Hne Hdev Hlen. unfold NewLedgerKeychain.
  destruct (decide (length indices = 0)) as [H0|_].
  - by destruct indices.
  - unfold mbind, Go_bind, bind, callGetAddresses, call. rewrite Hdev.
    by destruct (decide (length addresses ≠ length indices)).
Qed.

Lemma NewLedgerKeychain_success ledger indices d log addresses d' :
  indices ≠ [] →
  Ledger.GetAddresses ledger indices d = ((addresses, None), d') →
  length addresses = length indices →
  NewLedgerKeychain ledger indices (d, log)
  = (Returns (Some (keychainOf ledger addresses indices), None),
     (d', log ++ [CallGetAddresses indices])).
Proof.
  intros Hne Hdev Hlen. unfold NewLedgerKeychain.
  destruct (decide (length indices = 0)) as [H0|_].
  - by destruct indices.
  - unfold mbind, Go_bind, bind, callGetAddresses, call. rewrite Hdev.
    destruct (decide (length addresses ≠ length indices)); [done|].
    rewrite rangeAddresses_returns by (simpl; lia).
    unfold ret, keychainOf, inOrderPairing. simpl.
    by rewrite (left_id_L ∅ (∪)).
Qed.

(** The alias of line 68 is the constructor itself. *)
Lemma NewLedgerKeychainFromIndices_alias :
  @NewLedgerKeychainFromIndices D = @NewLedgerKeychain D.
Proof. reflexivity. Qed.

(** The constructor takes one of its four ways out; it never panics. *)
Lemma NewLedgerKeychain_constructed ledger indices d log :
  constructed ledger indices d log (NewLedgerKeychain ledger indices (d, log)).
Proof.
  destruct indices as [|i indices].
  { by apply constructed_empty. }
  destruct (Ledger.GetAddresses ledger (i :: indices) d)
    as [[addresses [e|]] d'] eqn:Hdev.
  - erewrite NewLedgerKeychain_device_error by done.
    by eapply constructed_device_error.
  - destruct (decide (length addresses = length (i :: indices))) as [Hl|Hl].
    + erewrite NewLedgerKeychain_success by done.
      by apply constructed_success.
    + erewrite NewLedgerKeychain_mismatch by done.
      by eapply constructed_mismatch.
Qed.

(** What a successful construction tells about the device's answer. *)
Lemma NewLedgerKeychain_success_inv ledger indices d log kc err w' :
  NewLedgerKeychain ledger indices (d, log) = (Returns (Some kc, err), w') →
  ∃ addresses d',
    indices ≠ [] ∧
    Ledger.GetAddresses ledger indices d = ((addresses, None), d') ∧
    length addresses = length indices ∧
    err = None ∧
    w' = (d', log ++ [CallGetAddresses indices]) ∧
    kc = keychainOf ledger addresses indices.
Proof.
  intros Hnew.
  pose proof (NewLedgerKeychain_constructed ledger indices d log) as Hc.
  rewrite Hnew in Hc. inversion Hc; subst. by eexists _, _.
Qed.
End construction.

(** ** Lookups in a constructed keychain *)

Section lookups.
Context {D : Type}.
Implicit Types (ledger : Ledger.t D) (kc : ledgerKeychain.t D).
Implicit Types (addresses : list ShortID) (indices : list uint32).
Implicit Types (a : ShortID) (x : uint32).

Lemma Get_hit kc a x :
  ledgerKeychain.addrToIdx kc !! a = Some x →
  Pure (ledgerKeychain.Get kc a)
    (Some (ledgerSigner.Build (ledgerKeychain.ledger kc) x a), true).
Proof. intros Hx w. unfold ledgerKeychain.Get. by rewrite Hx. Qed.

Lemma Get_miss kc a :
  ledgerKeychain.addrToIdx kc !! a = None →
  Pure (ledgerKeychain.Get kc a) (None, false).
Proof. intros Hx w. unfold ledgerKeychain.Get. by rewrite Hx. Qed.

(** Whatever [Get] returns, it returns it without touching the device, and
    a handle it returns is the one made from the map's entry. *)
Lemma Get_inv kc a (w w' : D * list Call) signer found :
  ledgerKeychain.Get kc a w = (Returns (Some signer, found), w') →
  ∃ x, ledgerKeychain.addrToIdx kc !! a = Some x ∧
       signer = ledgerSigner.Build (ledgerKeychain.ledger kc) x a ∧
       found = true ∧ w' = w.
Proof.
  unfold ledgerKeychain.Get.
  destruct (ledgerKeychain.addrToIdx kc !! a) as [x|]; unfold ret; [|done].
  intros [= <- <- <-]. by exists x.
Qed.

Lemma lastAt_exists addresses a :
  a ∈ addresses → ∃ i, lastAt addresses a i.
Proof.
  induction addresses as [|b l IH]; intros Hin; [by apply elem_of_nil in Hin|].
  destruct (decide (a ∈ l)) as [Hl|Hl].
  - destruct (IH Hl) as (i & Hi & Hlast). exists (S i). split; [done|].
    intros [|j] Hlt; [lia|]. apply Hlast. lia.
  - apply elem_of_cons in Hin as [->|Hin]; [|done].
    exists 0. split; [done|]. intros [|j] Hlt; [lia|]. simpl.
    intros Hj. apply Hl. by eapply list_elem_of_lookup_2.
Qed.

Lemma inOrderPairing_last addresses indices i a x :
  lastAt addresses a i → indices !! i = Some x →
  inOrderPairing addresses indices !! a = Some x.
Proof.
  intros [Hi Hlast] Hx. unfold inOrderPairing.
  apply (foldl_ins_last _ _ i).
  - rewrite (lookup_zip_with pair addresses indices i), Hi. simpl.
    by rewrite Hx.
  - intros j y Hlt Hj.
    apply lookup_zip_with_Some in Hj as (a' & y' & [= <- <-] & Ha & _).
    by apply (Hlast j).
Qed.

Lemma inOrderPairing_dom addresses indices :
  length addresses = length indices →
  dom (inOrderPairing addresses indices) = list_to_set addresses.
Proof.
  intros Hlen. unfold inOrderPairing.
  rewrite foldl_ins_dom, fst_zip by lia. rewrite dom_empty_L.
  by rewrite (left_id_L ∅ (∪)).
Qed.

Lemma inOrderPairing_lookup_inv addresses indices a x :
  inOrderPairing addresses indices !! a = Some x →
  ∃ i, addresses !! i = Some a ∧ indices !! i = Some x.
Proof.
  unfold inOrderPairing. intros [Hm|Hin]%foldl_ins_lookup_inv; [done|].
  apply list_elem_of_lookup in Hin as [i Hi]. exists i.
  by apply lookup_zip_with_Some in Hi as (a' & y' & [= <- <-] & Ha & Hy).
Qed.

(** Every held address has a handle, and the handle answers with the
    address it was asked for. *)
Lemma Get_held ledger addresses indices a :
  length addresses = length indices →
  a ∈ (list_to_set addresses : gset ShortID) →
  ∃ signer,
    Pure (ledgerKeychain.Get (keychainOf ledger addresses indices) a)
      (Some signer, true) ∧
    Pure (ledgerSigner.Address signer) a.
Proof.
  intros Hlen Hin. apply elem_of_list_to_set in Hin.
  destruct (lastAt_exists _ _ Hin) as [i Hi].
  destruct (lookup_lt_is_Some_2 indices i) as [x Hx].
  { rewrite <- Hlen. apply lookup_lt_is_Some_1. destruct Hi as [Hi _]. eauto. }
  eexists. split.
  - apply Get_hit. simpl. by eapply inOrderPairing_last.
  - by intros w.
Qed.
End lookups.

(** * The claims *)

(** ** Lookup after construction *)

(** C1. For a non-empty index list for which the device returns one address
    per index, pairwise distinct and without error, construction succeeds
    (with exactly one device call, [GetAddresses indices]). The set that
    [Addresses()] returns is the set of the addresses the device returned,
    as many as there are indices; and for every address in it, so for every
    address the device returned, [Get] returns [found = true] and a handle
    whose [Address()] is the queried address. *)
Theorem get_every_derived_address {D : Type} (ledger : Ledger.t D)
    (indices : list uint32) (d : D) (log : list Call)
    (addresses : list ShortID) (d' : D) :
  indices ≠ [] →
  Ledger.GetAddresses ledger indices d = ((addresses, None), d') →
  length addresses = length indices →
  NoDup addresses →
  ∃ kc held,
    NewLedgerKeychain ledger indices (d, log)
    = (Returns (Some kc, None), (d', log ++ [CallGetAddresses indices])) ∧
    Pure (ledgerKeychain.Addresses kc) held ∧
    held = list_to_set addresses ∧
    size held = length indices ∧
    (∀ a, a ∈ addresses → a ∈ held) ∧
    ∀ a, a ∈ held →
      ∃ signer,
        Pure (ledgerKeychain.Get kc a) (Some signer, true) ∧
        Pure (ledgerSigner.Address signer) a.
Proof.
  intros Hne Hdev Hlen Hnd.
  exists (keychainOf ledger addresses indices), (list_to_set addresses).
  split; [by apply NewLedgerKeychain_success|].
  split; [by intros w|].
  split; [done|].
  split; [by rewrite size_list_to_set, Hlen|].
  split; [intros a Hin; by apply elem_of_list_to_set|].
  intros a Hin. by apply Get_held.
Qed.

Lemma get_every_derived_address_witness :
  ∃ kc held,
    NewLedgerKeychain mockLedger.ledger [0; 1; 2]%N
      (mockLedger.newMockLedger, [])
    = (Returns (Some kc, None),
       ((answerOf [0; 1; 2]%N).2, [] ++ [CallGetAddresses [0; 1; 2]%N])) ∧
    Pure (ledgerKeychain.Addresses kc) held ∧
    held = list_to_set (answerOf [0; 1; 2]%N).1.1 ∧
    size held = length [0; 1; 2]%N ∧
    (∀ a, a ∈ (answerOf [0; 1; 2]%N).1.1 → a ∈ held) ∧
    ∀ a, a ∈ held →
      ∃ signer,
        Pure (ledgerKeychain.Get kc a) (Some signer, true) ∧
        Pure (ledgerSigner.Address signer) a.
Proof.
  apply (get_every_derived_address mockLedger.ledger [0; 1; 2]%N
           mockLedger.newMockLedger [] (answerOf [0; 1; 2]%N).1.1).
  - discriminate.
  - vm_compute. reflexivity.
  - reflexivity.
  - apply (bool_decide_unpack _). vm_compute. reflexivity.
Defined.

(** C2. On success the address→index mapping is the in-order pairing of the
    i-th returned address with the i-th input index, a later pair replacing
    an earlier one with the same address; so [Get] on an address returns a
    handle bound to the index at the last position that produced it. *)
Theorem later_index_overwrites {D : Type} (ledger : Ledger.t D)
    (indices : list uint32) (d : D) (log : list Call)
    (kc : ledgerKeychain.t D) (err : error) (w' : D * list Call) :
  NewLedgerKeychain ledger indices (d, log) = (Returns (Some kc, err), w') →
  ∃ addresses d',
    Ledger.GetAddresses ledger indices d = ((addresses, None), d') ∧
    length addresses = length indices ∧
    ledgerKeychain.addrToIdx kc = inOrderPairing addresses indices ∧
    ∀ i a x,
      lastAt addresses a i → indices !! i = Some x →
      Pure (ledgerKeychain.Get kc a)
        (Some (ledgerSigner.Build ledger x a), true).
Proof.
  intros (addresses & d' & Hne & Hdev & Hlen & -> & -> & ->)
    %NewLedgerKeychain_success_inv.
  exists addresses, d'. do 3 (split; [done|]).
  intros i a x Hlast Hx.
  apply (Get_hit (keychainOf ledger addresses indices)). simpl.
  by eapply inOrderPairing_last.
Qed.

Lemma later_index_overwrites_witness :
  ∃ addresses d',
    Ledger.GetAddresses mockLedger.ledger [0; 256]%N mockLedger.newMockLedger
    = ((addresses, None), d') ∧
    length addresses = length [0; 256]%N ∧
    ledgerKeychain.addrToIdx (keychainOfMock [0; 256]%N)
    = inOrderPairing addresses [0; 256]%N ∧
    ∀ i a x,
      lastAt addresses a i → [0; 256]%N !! i = Some x →
      Pure (ledgerKeychain.Get (keychainOfMock [0; 256]%N) a)
        (Some (ledgerSigner.Build mockLedger.ledger x a), true).
Proof.
  apply (later_index_overwrites mockLedger.ledger [0; 256]%N
           mockLedger.newMockLedger [] (keychainOfMock [0; 256]%N) None
           ((answerOf [0; 256]%N).2, [CallGetAddresses [0; 256]%N])).
  vm_compute. reflexivity.
Defined.

(** The collision at work: indices 0 and 256 give the stand-in's address
    0, and the handle for it is bound to 256, the later of the two. *)
Example collision_last_index_wins :
  (answerOf [0; 256]%N).1.1 = [mockLedger.generate 0; mockLedger.generate 0] ∧
  ledgerKeychain.Get (keychainOfMock [0; 256]%N) (mockLedger.generate 0)
    (mockLedger.newMockLedger, [])
  = (Returns (Some (ledgerSigner.Build mockLedger.ledger 256%N
                      (mockLedger.generate 0)), true),
     (mockLedger.newMockLedger, [])).
Proof. split; vm_compute; reflexivity. Qed.

(** C3. In a keychain produced by a successful construction the set that
    [Addresses()] returns is exactly the domain of the address→index
    mapping: a held address has exactly one entry, an address outside the
    set has none; and a handle that [Get] returns for an address carries an
    index that produced that address at construction. *)
Theorem held_addresses_are_indexed {D : Type} (ledger : Ledger.t D)
    (indices : list uint32) (d : D) (log : list Call)
    (kc : ledgerKeychain.t D) (err : error) (w' : D * list Call) :
  NewLedgerKeychain ledger indices (d, log) = (Returns (Some kc, err), w') →
  ∃ addresses d' held,
    Ledger.GetAddresses ledger indices d = ((addresses, None), d') ∧
    Pure (ledgerKeychain.Addresses kc) held ∧
    held = dom (ledgerKeychain.addrToIdx kc) ∧
    (∀ a, a ∈ held →
       ∃ x, ledgerKeychain.addrToIdx kc !! a = Some x ∧
            ∀ y, ledgerKeychain.addrToIdx kc !! a = Some y → y = x) ∧
    (∀ a, a ∉ held → ledgerKeychain.addrToIdx kc !! a = None) ∧
    ∀ a w1 signer found w1',
      ledgerKeychain.Get kc a w1 = (Returns (Some signer, found), w1') →
      ledgerSigner.addr signer = a ∧
      ∃ i, addresses !! i = Some a ∧
           indices !! i = Some (ledgerSigner.idx signer).
Proof.
  intros (addresses & d' & Hne & Hdev & Hlen & -> & -> & ->)
    %NewLedgerKeychain_success_inv.
  exists addresses, d', (list_to_set addresses).
  split; [done|]. split; [by intros w|]. simpl.
  pose proof (inOrderPairing_dom addresses indices Hlen) as Hdom.
  split; [done|]. rewrite <- Hdom. split; [|split].
  - intros a [x Hx]%elem_of_dom. exists x. split; [done|]. congruence.
  - intros a Hout. by apply not_elem_of_dom.
  - intros a w1 signer found w1' (x & Hx & -> & _)%Get_inv. simpl in *.
    split; [done|]. by apply inOrderPairing_lookup_inv.
Qed.

Lemma held_addresses_are_indexed_witness :
  ∃ addresses d' held,
    Ledger.GetAddresses mockLedger.ledger [0; 1; 2]%N mockLedger.newMockLedger
    = ((addresses, None), d') ∧
    Pure (ledgerKeychain.Addresses (keychainOfMock [0; 1; 2]%N)) held ∧
    held = dom (ledgerKeychain.addrToIdx (keychainOfMock [0; 1; 2]%N)) ∧
    (∀ a, a ∈ held →
       ∃ x, ledgerKeychain.addrToIdx (keychainOfMock [0; 1; 2]%N) !! a
            = Some x ∧
            ∀ y, ledgerKeychain.addrToIdx (keychainOfMock [0; 1; 2]%N) !! a
                 = Some y → y = x) ∧
    (∀ a, a ∉ held →
       ledgerKeychain.addrToIdx (keychainOfMock [0; 1; 2]%N) !! a = None) ∧
    ∀ a w1 signer found w1',
      ledgerKeychain.Get (keychainOfMock [0; 1; 2]%N) a w1
      = (Returns (Some signer, found), w1') →
      ledgerSigner.addr signer = a ∧
      ∃ i, addresses !! i = Some a ∧
           [0; 1; 2]%N !! i = Some (ledgerSigner.idx signer).
Proof.
  apply (held_addresses_are_indexed mockLedger.ledger [0; 1; 2]%N
           mockLedger.newMockLedger [] (keychainOfMock [0; 1; 2]%N) None
           ((answerOf [0; 1; 2]%N).2, [CallGetAddresses [0; 1; 2]%N])).
  vm_compute. reflexivity.
Defined.

(** ** Signing *)

(** C4. For a handle obtained from [Get] and any byte string, [SignHash]
    and [Sign] make exactly one device call, to the entry point of the same
    name, with the bytes and the handle's bound index unchanged, and return
    the device's pair of signature and error as it is: the signature on
    success, the error on failure, nothing retried. *)
Theorem signing_forwards_bound_index {D : Type} (kc : ledgerKeychain.t D)
    (a : ShortID) (w0 : D * list Call)
    (signer : ledgerSigner.t D) (found : bool) (w0' : D * list Call) :
  ledgerKeychain.Get kc a w0 = (Returns (Some signer, found), w0') →
  ∃ x,
    ledgerKeychain.addrToIdx kc !! a = Some x ∧
    ledgerSigner.idx signer = x ∧
    ∀ (hash : bytes) (d : D) (log : list Call),
      (∀ sig err d',
         Ledger.SignHash (ledgerKeychain.ledger kc) hash x d
         = ((sig, err), d') →
         ledgerSigner.SignHash signer hash (d, log)
         = (Returns (sig, err), (d', log ++ [CallSignHash hash x]))) ∧
      (∀ sig err d',
         Ledger.Sign (ledgerKeychain.ledger kc) hash x d = ((sig, err), d') →
         ledgerSigner.Sign signer hash (d, log)
         = (Returns (sig, err), (d', log ++ [CallSign hash x]))).
Proof.
  intros (x & Hx & -> & _)%Get_inv. exists x. do 2 (split; [done|]).
  intros hash d log.
  split; intros sig err d' Hdev;
    unfold ledgerSigner.SignHash, ledgerSigner.Sign, callSignHash, callSign,
      call; simpl; by rewrite Hdev.
Qed.

Lemma signing_forwards_bound_index_witness :
  ∃ x,
    ledgerKeychain.addrToIdx (keychainOfMock [0]%N) !! mockLedger.generate 0
    = Some x ∧
    ledgerSigner.idx
      (ledgerSigner.Build mockLedger.ledger 0%N (mockLedger.generate 0)) = x ∧
    ∀ (hash : bytes) (d : mockLedger.t) (log : list Call),
      (∀ sig err d',
         Ledger.SignHash (ledgerKeychain.ledger (keychainOfMock [0]%N))
           hash x d = ((sig, err), d') →
         ledgerSigner.SignHash
           (ledgerSigner.Build mockLedger.ledger 0%N (mockLedger.generate 0))
           hash (d, log)
         = (Returns (sig, err), (d', log ++ [CallSignHash hash x]))) ∧
      (∀ sig err d',
         Ledger.Sign (ledgerKeychain.ledger (keychainOfMock [0]%N))
           hash x d = ((sig, err), d') →
         ledgerSigner.Sign
           (ledgerSigner.Build mockLedger.ledger 0%N (mockLedger.generate 0))
           hash (d, log)
         = (Returns (sig, err), (d', log ++ [CallSign hash x]))).
Proof.
  apply (signing_forwards_bound_index (keychainOfMock [0]%N)
           (mockLedger.generate 0) (mockLedger.newMockLedger, [])
           (ledgerSigner.Build mockLedger.ledger 0%N (mockLedger.generate 0))
           true (mockLedger.newMockLedger, [])).
  vm_compute. reflexivity.
Defined.

(** The run of [TestLedgerSignerSign]: the stand-in's two signatures, and in
    the log the index 0 used at construction. *)
Example mock_signer_signs :
  let signer :=
    ledgerSigner.Build mockLedger.ledger 0%N (mockLedger.generate 0) in
  let w := ((answerOf [0]%N).2, [CallGetAddresses [0]%N]) in
  ledgerSigner.SignHash signer (String.list_byte_of_string "test-hash") w
  = (Returns (String.list_byte_of_string "mock-hash-signature", None),
     (w.1, [CallGetAddresses [0]%N;
            CallSignHash (String.list_byte_of_string "test-hash") 0%N])) ∧
  ledgerSigner.Sign signer (String.list_byte_of_string "test-data") w
  = (Returns (String.list_byte_of_string "mock-signature", None),
     (w.1, [CallGetAddresses [0]%N;
            CallSign (String.list_byte_of_string "test-data") 0%N])).
Proof. split; vm_compute; reflexivity. Qed.

(** ** Failed construction *)

(** C5. Construction with an empty index list fails with
    [ErrInvalidIndicesLength] and returns no keychain; the device state and
    the log of device calls are as before, so the device was never called
    and nothing was created. *)
Theorem empty_indices_rejected {D : Type} (ledger : Ledger.t D)
    (d : D) (log : list Call) :
  NewLedgerKeychain ledger [] (d, log)
  = (Returns (None, Some ErrInvalidIndicesLength), (d, log)).
Proof. apply NewLedgerKeychain_empty. Qed.

(** C6. For a non-empty index list, if the device's batch address
    resolution succeeds with a number of addresses other than the number of
    indices, construction fails with [ErrInvalidNumAddrsDerived] and returns
    no keychain. *)
Theorem address_count_mismatch_rejected {D : Type} (ledger : Ledger.t D)
    (indices : list uint32) (d : D) (log : list Call)
    (addresses : list ShortID) (d' : D) :
  indices ≠ [] →
  Ledger.GetAddresses ledger indices d = ((addresses, None), d') →
  length addresses ≠ length indices →
  NewLedgerKeychain ledger indices (d, log)
  = (Returns (None, Some ErrInvalidNumAddrsDerived),
     (d', log ++ [CallGetAddresses indices])).
Proof. apply NewLedgerKeychain_mismatch. Qed.

Lemma address_count_mismatch_rejected_witness :
  NewLedgerKeychain (cannedLedger.ledger twoAddresses) [0; 1; 2]%N ((), [])
  = (Returns (None, Some ErrInvalidNumAddrsDerived),
     ((), [] ++ [CallGetAddresses [0; 1; 2]%N])).
Proof.
  apply (address_count_mismatch_rejected (cannedLedger.ledger twoAddresses)
           [0; 1; 2]%N () []
           [mockLedger.generate 0; mockLedger.generate 1] ()).
  - discriminate.
  - reflexivity.
  - simpl. lia.
Defined.

(** C7. For a non-empty index list, if the device's batch address
    resolution fails, construction returns that very error and no keychain.
    Whatever the device answers, construction is all or nothing: either an
    error and no keychain, or no error and a keychain that holds every
    address the device returned, each with its entry in the mapping. *)
Theorem device_error_propagates {D : Type} (ledger : Ledger.t D)
    (indices : list uint32) (d : D) (log : list Call)
    (addresses : list ShortID) (derr : error) (d' : D) :
  indices ≠ [] →
  Ledger.GetAddresses ledger indices d = ((addresses, derr), d') →
  let result := NewLedgerKeychain ledger indices (d, log) in
  let after := (d', log ++ [CallGetAddresses indices]) in
  (∀ e, derr = Some e → result = (Returns (None, Some e), after)) ∧
  ((∃ e, result = (Returns (None, Some e), after)) ∨
   (∃ kc, result = (Returns (Some kc, None), after) ∧
          length addresses = length indices ∧
          ledgerKeychain.addrs kc = list_to_set addresses ∧
          dom (ledgerKeychain.addrToIdx kc) = list_to_set addresses)).
Proof.
  intros Hne Hdev result after. subst result after.
  destruct derr as [e|].
  - rewrite (NewLedgerKeychain_device_error _ _ _ _ _ _ _ Hne Hdev).
    split; [by intros e' [= <-]|]. left. by exists e.
  - split; [done|].
    destruct (decide (length addresses = length indices)) as [Hlen|Hlen].
    + rewrite (NewLedgerKeychain_success _ _ _ _ _ _ Hne Hdev Hlen).
      right. eexists. split; [done|]. split; [done|]. split; [done|].
      by apply inOrderPairing_dom.
    + rewrite (NewLedgerKeychain_mismatch _ _ _ _ _ _ Hne Hdev Hlen).
      left. by eexists.
Qed.

Lemma device_error_propagates_witness :
  let result :=
    NewLedgerKeychain (cannedLedger.ledger disconnected) [0]%N ((), []) in
  let after := ((), [] ++ [CallGetAddresses [0]%N]) in
  (∀ e, Some (ErrDevice "device disconnected") = Some e →
        result = (Returns (None, Some e), after)) ∧
  ((∃ e, result = (Returns (None, Some e), after)) ∨
   (∃ kc, result = (Returns (Some kc, None), after) ∧
          length (@nil ShortID) = length [0%N] ∧
          ledgerKeychain.addrs kc = list_to_set (@nil ShortID) ∧
          dom (ledgerKeychain.addrToIdx kc) = list_to_set (@nil ShortID))).
Proof.
  apply (device_error_propagates (cannedLedger.ledger disconnected)
           [0]%N () [] [] (Some (ErrDevice "device disconnected")) ()).
  - discriminate.
  - reflexivity.
Defined.

(** ** Lookup of an address that was not derived *)

(** C8. In a keychain produced by construction, [Get] on an address that is
    not among those the device returned gives [found = false] and no
    handle. [Get] has no error to raise; it returns from every device state
    and log leaving both as they were, so it makes no device call; and the
    keychain, a value that [Get] only reads, is as before. *)
Theorem get_unknown_address_not_found {D : Type} (ledger : Ledger.t D)
    (indices : list uint32) (d : D) (log : list Call)
    (kc : ledgerKeychain.t D) (err : error) (w' : D * list Call) :
  NewLedgerKeychain ledger indices (d, log) = (Returns (Some kc, err), w') →
  ∃ addresses d',
    Ledger.GetAddresses ledger indices d = ((addresses, None), d') ∧
    ∀ a, a ∉ addresses →
      Pure (ledgerKeychain.Get kc a) (None, false).
Proof.
  intros (addresses & d' & Hne & Hdev & Hlen & -> & -> & ->)
    %NewLedgerKeychain_success_inv.
  exists addresses, d'. split; [done|]. intros a Hout.
  apply Get_miss. simpl. apply not_elem_of_dom.
  rewrite inOrderPairing_dom by done. by rewrite elem_of_list_to_set.
Qed.

Lemma get_unknown_address_not_found_witness :
  ∃ addresses d',
    Ledger.GetAddresses mockLedger.ledger [0; 1]%N mockLedger.newMockLedger
    = ((addresses, None), d') ∧
    ∀ a, a ∉ addresses →
      Pure (ledgerKeychain.Get (keychainOfMock [0; 1]%N) a) (None, false).
Proof.
  apply (get_unknown_address_not_found mockLedger.ledger [0; 1]%N
           mockLedger.newMockLedger [] (keychainOfMock [0; 1]%N) None
           ((answerOf [0; 1]%N).2, [CallGetAddresses [0; 1]%N])).
  vm_compute. reflexivity.
Defined.

(** The run of [TestLedgerKeychainGetSigner]: the address of index 0 is
    found, with a handle that answers with it, and [unknownAddr] is not. *)
Example mock_get_signer :
  let w := ((answerOf [0; 1]%N).2, [CallGetAddresses [0; 1]%N]) in
  ledgerKeychain.Get (keychainOfMock [0; 1]%N) (mockLedger.generate 0) w
  = (Returns (Some (ledgerSigner.Build mockLedger.ledger 0%N
                      (mockLedger.generate 0)), true), w) ∧
  ledgerKeychain.Get (keychainOfMock [0; 1]%N) unknownAddr w
  = (Returns (None, false), w).
Proof. split; vm_compute; reflexivity. Qed.

(** ** The number of addresses held *)

Lemma remove_dups_length_le (l : list ShortID) :
  length (remove_dups l) ≤ length l.
Proof.
  induction l as [|a l IH]; simpl; [done|].
  destruct (decide_rel elem_of a l); simpl; lia.
Qed.

Lemma size_list_to_set_remove_dups (l : list ShortID) :
  size (list_to_set l : gset ShortID) = length (remove_dups l).
Proof.
  rewrite <- (size_list_to_set (C := gset ShortID) (remove_dups l))
    by apply NoDup_remove_dups.
  f_equal. apply set_eq. intros a.
  by rewrite !elem_of_list_to_set, elem_of_remove_dups.
Qed.

(** C9. After a successful construction the set that [Addresses()] returns
    has as many elements as there are distinct addresses among those the
    device returned, which is at most the number of input indices. *)
Theorem addresses_count_distinct {D : Type} (ledger : Ledger.t D)
    (indices : list uint32) (d : D) (log : list Call)
    (kc : ledgerKeychain.t D) (err : error) (w' : D * list Call) :
  NewLedgerKeychain ledger indices (d, log) = (Returns (Some kc, err), w') →
  ∃ addresses d' held,
    Ledger.GetAddresses ledger indices d = ((addresses, None), d') ∧
    Pure (ledgerKeychain.Addresses kc) held ∧
    size held = length (remove_dups addresses) ∧
    size held ≤ length indices.
Proof.
  intros (addresses & d' & Hne & Hdev & Hlen & -> & -> & ->)
    %NewLedgerKeychain_success_inv.
  exists addresses, d', (list_to_set addresses).
  split; [done|]. split; [by intros w|].
  rewrite size_list_to_set_remove_dups. split; [done|].
  rewrite <- Hlen. apply remove_dups_length_le.
Qed.

Lemma addresses_count_distinct_witness :
  ∃ addresses d' held,
    Ledger.GetAddresses mockLedger.ledger [0; 1; 2]%N mockLedger.newMockLedger
    = ((addresses, None), d') ∧
    Pure (ledgerKeychain.Addresses (keychainOfMock [0; 1; 2]%N)) held ∧
    size held = length (remove_dups addresses) ∧
    size held ≤ length [0; 1; 2]%N.
Proof.
  apply (addresses_count_distinct mockLedger.ledger [0; 1; 2]%N
           mockLedger.newMockLedger [] (keychainOfMock [0; 1; 2]%N) None
           ((answerOf [0; 1; 2]%N).2, [CallGetAddresses [0; 1; 2]%N])).
  vm_compute. reflexivity.
Defined.

(** The run of [TestNewLedgerKeychain] holds three addresses for three
    indices; the indices 0 and 256 leave one address for two indices. *)
Example mock_addresses_count :
  size (ledgerKeychain.addrs (keychainOfMock [0; 1; 2]%N)) = 3 ∧
  size (ledgerKeychain.addrs (keychainOfMock [0; 256]%N)) = 1.
Proof. split; vm_compute; reflexivity. Qed.

(** ** The errors of the package *)

(** A device that answers [ErrInvalidNumSignatures] gets it back from the
    constructor and from both signing methods of a handle: the claim that
    no operation ever returns that error does not hold. *)
Lemma reserved_error_returned_counterexample :
  NewLedgerKeychain (cannedLedger.ledger miscounting) [0]%N ((), [])
  = (Returns (None, Some ErrInvalidNumSignatures),
     ((), [CallGetAddresses [0]%N])) ∧
  ledgerSigner.SignHash
    (ledgerSigner.Build (cannedLedger.ledger miscounting) 0%N zeroShortID)
    [] ((), [])
  = (Returns ([], Some ErrInvalidNumSignatures), ((), [CallSignHash [] 0%N])) ∧
  ledgerSigner.Sign
    (ledgerSigner.Build (cannedLedger.ledger miscounting) 0%N zeroShortID)
    [] ((), [])
  = (Returns ([], Some ErrInvalidNumSignatures), ((), [CallSign [] 0%N])).
Proof. repeat split. Qed.

(** C10, amended. Construction fails in exactly three ways: with
    [ErrInvalidIndicesLength] on an empty index list, with the device's own
    error when the batch resolution fails, and with
    [ErrInvalidNumAddrsDerived] on a count mismatch; a failure comes with no
    keychain. The package itself never produces
    [ErrInvalidNumAddrsToDerive] or [ErrInvalidNumSignatures]: the
    constructor, [SignHash] and [Sign] return an error of the device only as
    the device returned it from the one call they made, and [Get],
    [Addresses] and [Address] have no error result. *)
Theorem errors_come_from_three_places {D : Type} (ledger : Ledger.t D)
    (indices : list uint32) (signer : ledgerSigner.t D) (hash : bytes)
    (d : D) (log : list Call) :
  (∀ okc e w',
     NewLedgerKeychain ledger indices (d, log) = (Returns (okc, Some e), w') →
     okc = None ∧
     ((indices = [] ∧ e = ErrInvalidIndicesLength) ∨
      (indices ≠ [] ∧
       ∃ addresses d',
         Ledger.GetAddresses ledger indices d = ((addresses, Some e), d')) ∨
      (indices ≠ [] ∧ e = ErrInvalidNumAddrsDerived ∧
       ∃ addresses d',
         Ledger.GetAddresses ledger indices d = ((addresses, None), d') ∧
         length addresses ≠ length indices)) ∧
     (e = ErrInvalidNumAddrsToDerive ∨ e = ErrInvalidNumSignatures →
      ∃ addresses d',
        Ledger.GetAddresses ledger indices d = ((addresses, Some e), d'))) ∧
  (∀ sig e w',
     ledgerSigner.SignHash signer hash (d, log) = (Returns (sig, Some e), w') →
     ∃ d',
       Ledger.SignHash (ledgerSigner.ledger signer) hash
         (ledgerSigner.idx signer) d = ((sig, Some e), d')) ∧
  (∀ sig e w',
     ledgerSigner.Sign signer hash (d, log) = (Returns (sig, Some e), w') →
     ∃ d',
       Ledger.Sign (ledgerSigner.ledger signer) hash
         (ledgerSigner.idx signer) d = ((sig, Some e), d')).
Proof.
  split; [|split].
  - intros okc e w' Hnew.
    pose proof (NewLedgerKeychain_constructed ledger indices d log) as Hc.
    rewrite Hnew in Hc. inversion Hc; subst.
    + split; [done|]. split; [by left|]. by intros [|].
    + split; [done|]. split; [right; left; split; [done|]|]; by eexists _, _.
    + split; [done|]. split; [|by intros [|]].
      right; right. do 2 (split; [done|]). by eexists _, _.
  - intros sig e w'.
    unfold ledgerSigner.SignHash, callSignHash, call.
    destruct (Ledger.SignHash _ _ _ _) as [[sig' e'] d'].
    intros [= -> -> <-]. by exists d'.
  - intros sig e w'.
    unfold ledgerSigner.Sign, callSign, call.
    destruct (Ledger.Sign _ _ _ _) as [[sig' e'] d'].
    intros [= -> -> <-]. by exists d'.
Qed.

(** * Further properties *)

(** ** The stand-in device *)

Lemma byte_of_uint32_to_N (n : uint32) :
  Byte.to_N (byte_of_uint32 n) = (n `mod` 256)%N.
Proof.
  unfold byte_of_uint32.
  destruct (Byte.of_N (n `mod` 256)%N) as [b|] eqn:Hb; simpl.
  - by apply Byte.to_of_N.
  - apply Byte.of_N_None_iff in Hb.
    pose proof (N.mod_upper_bound n 256). lia.
Qed.

Lemma generate_eq_iff (i j : uint32) :
  mockLedger.generate i = mockLedger.generate j ↔
  (i `mod` 256 = j `mod` 256)%N.
Proof.
  rewrite <- !byte_of_uint32_to_N. unfold mockLedger.generate. split.
  - intros Heq. f_equal.
    by apply (f_equal (λ v : ShortID, v !!! 0%fin)) in Heq.
  - intros Heq.
    assert (byte_of_uint32 i = byte_of_uint32 j) as ->; [|done].
    apply (inj Some).
    by rewrite <- (Byte.of_to_N (byte_of_uint32 i)), Heq, Byte.of_to_N.
Qed.

Section mock.
Implicit Types (m : mockLedger.t) (idx : uint32).

Lemma cacheConsistent_new : cacheConsistent mockLedger.newMockLedger.
Proof.
  intros i a. unfold mockLedger.newMockLedger. simpl.
  by rewrite lookup_empty.
Qed.

Lemma mock_Address_spec hrp idx m :
  cacheConsistent m →
  ∃ m', mockLedger.Address hrp idx m = ((mockLedger.generate idx, None), m') ∧
        cacheConsistent m' ∧
        mockLedger.addresses m' !! idx = Some (mockLedger.generate idx) ∧
        mockLedger.addresses m ⊆ mockLedger.addresses m'.
Proof.
  intros Hm. unfold mockLedger.Address.
  destruct (mockLedger.addresses m !! idx) as [a|] eqn:Hidx.
  - exists m. pose proof (Hm _ _ Hidx) as ->. by repeat split.
  - eexists. split; [done|]. split; [|split]; cbn.
    + intros i a. simpl. destruct (decide (idx = i)) as [->|Hne].
      * rewrite lookup_insert_eq. by intros [= <-].
      * rewrite lookup_insert_ne by done. apply Hm.
    + by rewrite lookup_insert_eq.
    + by apply insert_subseteq.
Qed.

Lemma mock_Address_cached hrp idx m a :
  mockLedger.addresses m !! idx = Some a →
  mockLedger.Address hrp idx m = ((a, None), m).
Proof. intros Hidx. unfold mockLedger.Address. by rewrite Hidx. Qed.
Lemma mock_Address_unchanged hrp idx m :
  is_Some (mockLedger.addresses m !! idx) →
  (mockLedger.Address hrp idx m).2 = m.
Proof. intros [a Ha]. by rewrite (mock_Address_cached _ _ _ _ Ha). Qed.

(** The loop of [GetAddresses] writes the generated addresses at the
    positions [i], [i+1], ... of the slice and leaves the rest of it. *)
Lemma mock_rangeIndices_spec rest i addrs m :
  cacheConsistent m →
  i + length rest ≤ length addrs →
  ∃ m',
    mockLedger.rangeIndices i rest addrs m
    = ((take i addrs ++ (mockLedger.generate <$> rest)
          ++ drop (i + length rest) addrs, None), m') ∧
    cacheConsistent m' ∧
    (∀ idx, idx ∈ rest →
       mockLedger.addresses m' !! idx = Some (mockLedger.generate idx)) ∧
    mockLedger.addresses m ⊆ mockLedger.addresses m'.
Proof.
  revert i addrs m. induction rest as [|idx rest IH]; intros i addrs m Hm Hlen.
  - exists m. simpl. rewrite Nat.add_0_r, take_drop.
    split; [done|]. split; [done|]. split; [|done].
    intros idx Hin. by apply elem_of_nil in Hin.
  - simpl in *.
    destruct (mock_Address_spec "" idx m Hm) as (m1 & -> & Hm1 & Hidx & Hsub).
    destruct (IH (S i) (<[i := mockLedger.generate idx]> addrs) m1 Hm1)
      as (m' & -> & Hm' & Hrest & Hsub').
    { rewrite length_insert. lia. }
    exists m'. split; [|split; [done|split]].
    + f_equal. f_equal.
      rewrite (take_S_r _ _ (mockLedger.generate idx))
        by (apply list_lookup_insert_eq; lia).
      rewrite take_insert_ge by lia. rewrite drop_insert_lt by lia.
      replace (i + S (length rest)) with (S i + length rest) by lia.
      by rewrite <- (assoc_L (++)).
    + intros idx' [->|Hin]%elem_of_cons; [|by apply Hrest].
      by eapply lookup_weaken.
    + by etrans.
Qed.

Lemma mock_rangeIndices_cached rest i addrs m :
  (∀ idx, idx ∈ rest → is_Some (mockLedger.addresses m !! idx)) →
  (mockLedger.rangeIndices i rest addrs m).2 = m.
Proof.
  revert i addrs. induction rest as [|idx rest IH]; intros i addrs Hall; [done|].
  simpl. destruct (Hall idx) as [a Ha]; [by left|].
  rewrite (mock_Address_cached _ _ _ _ Ha). apply IH.
  intros idx' Hin. apply Hall. by right.
Qed.

Lemma mock_GetAddresses_spec indices m :
  cacheConsistent m →
  ∃ m',
    mockLedger.GetAddresses indices m
    = ((mockLedger.generate <$> indices, None), m') ∧
    cacheConsistent m' ∧
    (∀ idx, idx ∈ indices →
       mockLedger.addresses m' !! idx = Some (mockLedger.generate idx)) ∧
    mockLedger.addresses m ⊆ mockLedger.addresses m'.
Proof.
  intros Hm. unfold mockLedger.GetAddresses.
  destruct (mock_rangeIndices_spec indices 0
              (replicate (length indices) zeroShortID) m Hm)
    as (m' & -> & Hrest); [by rewrite length_replicate|].
  exists m'. split; [|done]. simpl.
  rewrite drop_ge by (by rewrite length_replicate).
  by rewrite (right_id_L [] (++)).
Qed.
End mock.

(** X1. The stand-in generates the same address for two indices exactly
    when they agree in their low eight bits: [byte(addressIndex)] is all
    that enters the address. *)
Theorem generate_collides_mod_256 (i j : uint32) :
  mockLedger.generate i = mockLedger.generate j ↔
  (i `mod` 256 = j `mod` 256)%N.
Proof. apply generate_eq_iff. Qed.

(** X2. On a consistent cache [Address] never fails and returns the address
    generated for the index, whatever the display hint; it keeps the cache
    consistent, and asking again returns the same address and leaves the
    device as it is. *)
Theorem mock_Address_is_stable (hrp hrp' : string) (idx : uint32)
    (m : mockLedger.t) :
  cacheConsistent m →
  ∃ m',
    mockLedger.Address hrp idx m = ((mockLedger.generate idx, None), m') ∧
    cacheConsistent m' ∧
    mockLedger.Address hrp' idx m' = ((mockLedger.generate idx, None), m').
Proof.
  intros Hm. destruct (mock_Address_spec hrp idx m Hm)
    as (m' & Haddr & Hm' & Hidx & _).
  exists m'. split; [done|]. split; [done|]. by apply mock_Address_cached.
Qed.

Lemma mock_Address_is_stable_witness :
  ∃ m',
    mockLedger.Address "" 7%N mockLedger.newMockLedger
    = ((mockLedger.generate 7, None), m') ∧
    cacheConsistent m' ∧
    mockLedger.Address "lux" 7%N m' = ((mockLedger.generate 7, None), m').
Proof.
  apply (mock_Address_is_stable "" "lux" 7%N mockLedger.newMockLedger).
  intros i a H. vm_compute in H. discriminate H.
Defined.

(** X3. On a consistent cache [GetAddresses] never fails and returns, in
    the order of the indices, the address generated for each of them: as
    many addresses as indices, none for none. *)
Theorem mock_GetAddresses_in_order (indices : list uint32)
    (m : mockLedger.t) :
  cacheConsistent m →
  ∃ m',
    mockLedger.GetAddresses indices m
    = ((mockLedger.generate <$> indices, None), m') ∧
    cacheConsistent m'.
Proof.
  intros Hm.
  destruct (mock_GetAddresses_spec indices m Hm) as (m' & Hget & Hm' & _).
  by exists m'.
Qed.

Lemma mock_GetAddresses_in_order_witness :
  ∃ m',
    mockLedger.GetAddresses [2; 0; 258]%N mockLedger.newMockLedger
    = ((mockLedger.generate <$> [2; 0; 258]%N, None), m') ∧
    cacheConsistent m'.
Proof.
  apply (mock_GetAddresses_in_order [2; 0; 258]%N mockLedger.newMockLedger).
  intros i a H. vm_compute in H. discriminate H.
Defined.

(** X4. After [GetAddresses] the device is settled on the indices it was
    asked: the same batch call returns the same addresses and changes
    nothing, and [Address] on the i-th index returns the i-th address of
    the batch and changes nothing. *)
Theorem mock_GetAddresses_settles (indices : list uint32) (m : mockLedger.t) :
  cacheConsistent m →
  ∃ addresses m',
    mockLedger.GetAddresses indices m = ((addresses, None), m') ∧
    mockLedger.GetAddresses indices m' = ((addresses, None), m') ∧
    ∀ i idx hrp,
      indices !! i = Some idx →
      ∃ a, addresses !! i = Some a ∧
           mockLedger.Address hrp idx m' = ((a, None), m').
Proof.
  intros Hm.
  destruct (mock_GetAddresses_spec indices m Hm)
    as (m' & Hget & Hm' & Hall & _).
  exists (mockLedger.generate <$> indices), m'. split; [done|]. split.
  - destruct (mock_GetAddresses_spec indices m' Hm') as (m'' & Hget' & _).
    rewrite Hget'. f_equal.
    pose proof (mock_rangeIndices_cached indices 0
                  (replicate (length indices) zeroShortID) m') as Hsame.
    unfold mockLedger.GetAddresses in Hget'. rewrite Hget' in Hsame.
    simpl in Hsame. apply Hsame. intros idx Hin. rewrite (Hall idx Hin). eauto.
  - intros i idx hrp Hi. exists (mockLedger.generate idx).
    split; [by rewrite list_lookup_fmap, Hi|].
    apply mock_Address_cached, Hall. by eapply list_elem_of_lookup_2.
Qed.

Lemma mock_GetAddresses_settles_witness :
  ∃ addresses m',
    mockLedger.GetAddresses [0; 1]%N mockLedger.newMockLedger
    = ((addresses, None), m') ∧
    mockLedger.GetAddresses [0; 1]%N m' = ((addresses, None), m') ∧
    ∀ i idx hrp,
      [0; 1]%N !! i = Some idx →
      ∃ a, addresses !! i = Some a ∧
           mockLedger.Address hrp idx m' = ((a, None), m').
Proof.
  apply (mock_GetAddresses_settles [0; 1]%N mockLedger.newMockLedger).
  intros i a H. vm_compute in H. discriminate H.
Defined.

(** ** The keychain over the stand-in device *)

(** X5. On the stand-in device construction succeeds for every non-empty
    index list. Afterwards the address that the device's [Address] returns
    for any of the indices is found by [Get], with a handle for that address
    whose index is one of the indices and agrees with the asked one in its
    low eight bits. *)
Theorem mock_construction_always_succeeds (indices : list uint32)
    (m : mockLedger.t) (log : list Call) :
  cacheConsistent m →
  indices ≠ [] →
  ∃ kc m',
    NewLedgerKeychain mockLedger.ledger indices (m, log)
    = (Returns (Some kc, None), (m', log ++ [CallGetAddresses indices])) ∧
    ∀ idx hrp,
      idx ∈ indices →
      ∃ a x,
        mockLedger.Address hrp idx m' = ((a, None), m') ∧
        Pure (ledgerKeychain.Get kc a)
          (Some (ledgerSigner.Build mockLedger.ledger x a), true) ∧
        x ∈ indices ∧
        (x `mod` 256 = idx `mod` 256)%N.
Proof.
  intros Hm Hne.
  destruct (mock_GetAddresses_spec indices m Hm)
    as (m' & Hget & Hm' & Hall & _).
  exists (keychainOf mockLedger.ledger (mockLedger.generate <$> indices)
            indices), m'.
  split.
  { apply NewLedgerKeychain_success; [done|exact Hget|].
    by rewrite length_fmap. }
  intros idx hrp Hin.
  destruct (lastAt_exists (mockLedger.generate <$> indices)
              (mockLedger.generate idx)) as [i Hlast].
  { by apply list_elem_of_fmap_2. }
  pose proof Hlast as [Hi _].
  apply list_lookup_fmap_Some in Hi as (x & Hgen & Hx).
  exists (mockLedger.generate idx), x. split; [|split; [|split]].
  - apply mock_Address_cached, Hall, Hin.
  - apply (Get_hit (keychainOf mockLedger.ledger _ indices)). simpl.
    by eapply inOrderPairing_last.
  - by eapply list_elem_of_lookup_2.
  - by apply generate_eq_iff.
Qed.

Lemma mock_construction_always_succeeds_witness :
  ∃ kc m',
    NewLedgerKeychain mockLedger.ledger [0; 256; 1]%N
      (mockLedger.newMockLedger, [])
    = (Returns (Some kc, None),
       (m', [] ++ [CallGetAddresses [0; 256; 1]%N])) ∧
    ∀ idx hrp,
      idx ∈ [0; 256; 1]%N →
      ∃ a x,
        mockLedger.Address hrp idx m' = ((a, None), m') ∧
        Pure (ledgerKeychain.Get kc a)
          (Some (ledgerSigner.Build mockLedger.ledger x a), true) ∧
        x ∈ [0; 256; 1]%N ∧
        (x `mod` 256 = idx `mod` 256)%N.
Proof.
  apply (mock_construction_always_succeeds [0; 256; 1]%N
           mockLedger.newMockLedger []).
  - intros i a H. vm_compute in H. discriminate H.
  - discriminate.
Defined.

Lemma generate_image_small (indices : list uint32) :
  (list_to_set (mockLedger.generate <$> indices) : gset ShortID)
  ⊆ list_to_set (mockLedger.generate <$> (N.of_nat <$> seq 0 256)).
Proof.
  intros a. rewrite !elem_of_list_to_set.
  intros (idx & -> & _)%list_elem_of_fmap.
  apply list_elem_of_fmap. exists (idx `mod` 256)%N. split.
  - apply generate_eq_iff. by rewrite N.Div0.mod_mod.
  - apply list_elem_of_fmap. exists (N.to_nat (idx `mod` 256)%N). split.
    + by rewrite N2Nat.id.
    + apply elem_of_seq.
      assert (idx `mod` 256 < 256)%N as Hlt by (by apply N.mod_upper_bound).
      revert Hlt. generalize (idx `mod` 256)%N. intros n Hlt. lia.
Qed.

(** X6. However many indices it is built from, a keychain over the
    stand-in device holds at most 256 addresses. *)
Theorem mock_keychain_at_most_256 (indices : list uint32)
    (m : mockLedger.t) (log : list Call)
    (kc : ledgerKeychain.t mockLedger.t) (err : error)
    (w' : mockLedger.t * list Call) :
  cacheConsistent m →
  NewLedgerKeychain mockLedger.ledger indices (m, log)
  = (Returns (Some kc, err), w') →
  ∃ held,
    Pure (ledgerKeychain.Addresses kc) held ∧
    size held ≤ 256.
Proof.
  intros Hm (addresses & m' & Hne & Hdev & Hlen & -> & -> & ->)
    %NewLedgerKeychain_success_inv.
  destruct (mock_GetAddresses_spec indices m Hm) as (m'' & Hget & _).
  simpl in Hdev. rewrite Hget in Hdev. injection Hdev as <- <-.
  eexists. split; [by intros w|]. simpl.
  etrans; [apply subseteq_size, generate_image_small|].
  rewrite size_list_to_set_remove_dups.
  etrans; [apply remove_dups_length_le|].
  by rewrite !length_fmap, length_seq.
Qed.

Lemma mock_keychain_at_most_256_witness :
  ∃ held,
    Pure (ledgerKeychain.Addresses (keychainOfMock [0; 256; 512; 1]%N)) held ∧
    size held ≤ 256.
Proof.
  apply (mock_keychain_at_most_256 [0; 256; 512; 1]%N
           mockLedger.newMockLedger [] (keychainOfMock [0; 256; 512; 1]%N)
           None
           ((answerOf [0; 256; 512; 1]%N).2,
            [CallGetAddresses [0; 256; 512; 1]%N])).
  - intros i a H. vm_compute in H. discriminate H.
  - vm_compute. reflexivity.
Defined.

(** ** More on construction and lookup *)

Lemma remove_dups_length_NoDup (l : list ShortID) :
  length (remove_dups l) = length l ↔ NoDup l.
Proof.
  split.
  - induction l as [|a l IH]; simpl; [constructor|].
    destruct (decide_rel elem_of a l) as [Hin|Hout]; simpl.
    + pose proof (remove_dups_length_le l). lia.
    + intros [= Hlen]. constructor; auto.
  - intros Hnd. rewrite <- size_list_to_set_remove_dups.
    by apply size_list_to_set.
Qed.

Lemma rangeAddresses_out_of_range {D : Type} rest i indices
    (m : gmap ShortID uint32) (s : gset ShortID) (w : D * list Call) :
  rest ≠ [] →
  length indices < i + length rest →
  rangeAddresses i rest indices m s w = (Panics, w).
Proof.
  revert i m s. induction rest as [|a rest IH]; intros i m s Hne Hlen; [done|].
  destruct (decide (length indices ≤ i)) as [Hle|Hgt].
  { by apply rangeAddresses_panics. }
  simpl in *. unfold mbind, Go_bind, bind, index.
  destruct (lookup_lt_is_Some_2 indices i) as [x Hx]; [lia|]. rewrite Hx.
  apply IH; [|lia]. destruct rest; [simpl in *; lia|done].
Qed.

(** X7. When the device returns pairwise-distinct addresses, one per
    index, no index is lost: for every position, [Get] on the address
    returned there gives a handle bound to the index given there. *)
Theorem every_index_reachable_when_distinct {D : Type} (ledger : Ledger.t D)
    (indices : list uint32) (d : D) (log : list Call)
    (addresses : list ShortID) (d' : D) :
  indices ≠ [] →
  Ledger.GetAddresses ledger indices d = ((addresses, None), d') →
  length addresses = length indices →
  NoDup addresses →
  ∃ kc,
    NewLedgerKeychain ledger indices (d, log)
    = (Returns (Some kc, None), (d', log ++ [CallGetAddresses indices])) ∧
    ∀ i x,
      indices !! i = Some x →
      ∃ a, addresses !! i = Some a ∧
           Pure (ledgerKeychain.Get kc a)
             (Some (ledgerSigner.Build ledger x a), true).
Proof.
  intros Hne Hdev Hlen Hnd.
  exists (keychainOf ledger addresses indices).
  split; [by apply NewLedgerKeychain_success|].
  intros i x Hx.
  destruct (lookup_lt_is_Some_2 addresses i) as [a Ha].
  { rewrite Hlen. by eapply lookup_lt_Some. }
  exists a. split; [done|].
  apply (Get_hit (keychainOf ledger addresses indices)). simpl.
  apply (inOrderPairing_last _ _ i); [|done]. split; [done|].
  intros j Hlt Hj. pose proof (NoDup_lookup _ _ _ _ Hnd Ha Hj). lia.
Qed.

Lemma every_index_reachable_when_distinct_witness :
  ∃ kc,
    NewLedgerKeychain mockLedger.ledger [7; 3; 5]%N
      (mockLedger.newMockLedger, [])
    = (Returns (Some kc, None),
       ((answerOf [7; 3; 5]%N).2, [] ++ [CallGetAddresses [7; 3; 5]%N])) ∧
    ∀ i x,
      [7; 3; 5]%N !! i = Some x →
      ∃ a, (answerOf [7; 3; 5]%N).1.1 !! i = Some a ∧
           Pure (ledgerKeychain.Get kc a)
             (Some (ledgerSigner.Build mockLedger.ledger x a), true).
Proof.
  apply (every_index_reachable_when_distinct mockLedger.ledger [7; 3; 5]%N
           mockLedger.newMockLedger [] (answerOf [7; 3; 5]%N).1.1).
  - discriminate.
  - vm_compute. reflexivity.
  - reflexivity.
  - apply (bool_decide_unpack _). vm_compute. reflexivity.
Defined.

(** X8. After a successful construction the keychain holds as many
    addresses as there were indices exactly when the addresses the device
    returned are pairwise distinct. *)
Theorem full_count_iff_distinct {D : Type} (ledger : Ledger.t D)
    (indices : list uint32) (d : D) (log : list Call)
    (kc : ledgerKeychain.t D) (err : error) (w' : D * list Call) :
  NewLedgerKeychain ledger indices (d, log) = (Returns (Some kc, err), w') →
  ∃ addresses d' held,
    Ledger.GetAddresses ledger indices d = ((addresses, None), d') ∧
    Pure (ledgerKeychain.Addresses kc) held ∧
    (size held = length indices ↔ NoDup addresses).
Proof.
  intros (addresses & d' & Hne & Hdev & Hlen & -> & -> & ->)
    %NewLedgerKeychain_success_inv.
  exists addresses, d', (list_to_set addresses).
  split; [done|]. split; [by intros w|].
  rewrite size_list_to_set_remove_dups, <- Hlen.
  apply remove_dups_length_NoDup.
Qed.

Lemma full_count_iff_distinct_witness :
  ∃ addresses d' held,
    Ledger.GetAddresses mockLedger.ledger [0; 256]%N mockLedger.newMockLedger
    = ((addresses, None), d') ∧
    Pure (ledgerKeychain.Addresses (keychainOfMock [0; 256]%N)) held ∧
    (size held = length [0; 256]%N ↔ NoDup addresses).
Proof.
  apply (full_count_iff_distinct mockLedger.ledger [0; 256]%N
           mockLedger.newMockLedger [] (keychainOfMock [0; 256]%N) None
           ((answerOf [0; 256]%N).2, [CallGetAddresses [0; 256]%N])).
  vm_compute. reflexivity.
Defined.

(** X9. Once the device's [GetAddresses] has returned, with whatever
    addresses and error, the constructor returns too: [indices[i]] in the
    loop stays in range, and that call is the only device call made, none
    of them a signing call. For an empty index list the constructor returns
    without calling the device at all. *)
Theorem construction_calls_at_most_once {D : Type} (ledger : Ledger.t D)
    (indices : list uint32) (d : D) (log : list Call)
    (addresses : list ShortID) (err : error) (d' : D) :
  Ledger.GetAddresses ledger indices d = ((addresses, err), d') →
  ∃ r,
    (indices = [] ∧
     NewLedgerKeychain ledger indices (d, log) = (Returns r, (d, log)))
    ∨ (indices ≠ [] ∧
       NewLedgerKeychain ledger indices (d, log)
       = (Returns r, (d', log ++ [CallGetAddresses indices]))).
Proof.
  intros Hdev. destruct indices as [|i0 indices].
  { eexists. left. split; [done|]. apply NewLedgerKeychain_empty. }
  destruct err as [e|].
  - eexists. right. split; [done|].
    by eapply NewLedgerKeychain_device_error.
  - destruct (decide (length addresses = length (i0 :: indices)))
      as [Hlen|Hlen]; eexists; right; (split; [done|]).
    + by apply NewLedgerKeychain_success.
    + by eapply NewLedgerKeychain_mismatch.
Qed.

Lemma construction_calls_at_most_once_witness :
  ∃ r,
    ([0%N] = [] ∧
     NewLedgerKeychain (cannedLedger.ledger twoAddresses) [0%N] ((), [])
     = (Returns r, ((), [])))
    ∨ ([0%N] ≠ [] ∧
       NewLedgerKeychain (cannedLedger.ledger twoAddresses) [0%N] ((), [])
       = (Returns r, ((), [] ++ [CallGetAddresses [0%N]]))).
Proof.
  apply (construction_calls_at_most_once (cannedLedger.ledger twoAddresses)
           [0%N] () []
           [mockLedger.generate 0; mockLedger.generate 1] None ()).
  reflexivity.
Defined.

(** X10. The length check of line 80 is what keeps [indices[i]] in range:
    entered with more addresses than indices, the loop of lines 86-89
    panics, leaving the device as it was. *)
Theorem unchecked_loop_panics {D : Type}
    (addresses : list ShortID) (indices : list uint32)
    (addrToIdx : gmap ShortID uint32) (addrs : gset ShortID)
    (w : D * list Call) :
  length indices < length addresses →
  rangeAddresses 0 addresses indices addrToIdx addrs w = (Panics, w).
Proof.
  intros Hlen. apply rangeAddresses_out_of_range; [|done].
  destruct addresses; [simpl in Hlen; lia|done].
Qed.

Lemma unchecked_loop_panics_witness :
  rangeAddresses 0 [mockLedger.generate 0; mockLedger.generate 1] [0%N] ∅ ∅
    (mockLedger.newMockLedger, [])
  = (Panics, (mockLedger.newMockLedger, [])).
Proof.
  apply (unchecked_loop_panics
           [mockLedger.generate 0; mockLedger.generate 1] [0%N] ∅ ∅
           (mockLedger.newMockLedger, [])).
  simpl. lia.
Defined.

(** ** From construction to signature *)

(** X11. Construction, lookup and signing in sequence, on any device:
    building a keychain, getting the handle of an address the device
    returned and signing a hash and then a message with it makes exactly
    three device calls, [GetAddresses], [SignHash] and [Sign], in that
    order, the last two with the index at the last position of the address;
    each call starts from the state the call before left, and the handle
    passes on what the device answered. *)
Theorem construct_get_sign_in_sequence {D : Type} (ledger : Ledger.t D)
    (indices : list uint32) (d : D) (log : list Call)
    (addresses : list ShortID) (d1 : D)
    (i : nat) (a : ShortID) (x : uint32)
    (hash msg : bytes) (r1 r2 : bytes * error) (d2 d3 : D) :
  indices ≠ [] →
  Ledger.GetAddresses ledger indices d = ((addresses, None), d1) →
  length addresses = length indices →
  lastAt addresses a i →
  indices !! i = Some x →
  Ledger.SignHash ledger hash x d1 = (r1, d2) →
  Ledger.Sign ledger msg x d2 = (r2, d3) →
  ('(kc, _) ← NewLedgerKeychain ledger indices;
   match kc with
   | None => ret None
   | Some kc =>
       '(signer, _) ← ledgerKeychain.Get kc a;
       match signer with
       | None => ret None
       | Some signer =>
           s1 ← ledgerSigner.SignHash signer hash;
           s2 ← ledgerSigner.Sign signer msg;
           a' ← ledgerSigner.Address signer;
           ret (Some (s1, s2, a'))
       end
   end) (d, log)
  = (Returns (Some (r1, r2, a)),
     (d3, log ++ [CallGetAddresses indices;
                  CallSignHash hash x; CallSign msg x])).
Proof.
  intros Hne Hdev Hlen Hlast Hx Hhash Hsign.
  unfold mbind, Go_bind, bind.
  rewrite (NewLedgerKeychain_success _ _ _ _ _ _ Hne Hdev Hlen).
  rewrite (Get_hit (keychainOf ledger addresses indices) a x)
    by (by eapply inOrderPairing_last).
  unfold ledgerSigner.SignHash, ledgerSigner.Sign, ledgerSigner.Address,
    callSignHash, callSign, call, ret. simpl.
  rewrite Hhash, Hsign. by rewrite <- !(assoc_L (++)).
Qed.

Lemma construct_get_sign_in_sequence_witness :
  ('(kc, _) ← NewLedgerKeychain mockLedger.ledger [0; 256]%N;
   match kc with
   | None => ret None
   | Some kc =>
       '(signer, _) ← ledgerKeychain.Get kc (mockLedger.generate 0);
       match signer with
       | None => ret None
       | Some signer =>
           s1 ← ledgerSigner.SignHash signer [x01];
           s2 ← ledgerSigner.Sign signer [x02];
           a' ← ledgerSigner.Address signer;
           ret (Some (s1, s2, a'))
       end
   end) (mockLedger.newMockLedger, [])
  = (Returns
       (Some ((String.list_byte_of_string "mock-hash-signature", None),
              (String.list_byte_of_string "mock-signature", None),
              mockLedger.generate 0)),
     ((answerOf [0; 256]%N).2,
      [] ++ [CallGetAddresses [0; 256]%N;
             CallSignHash [x01] 256%N; CallSign [x02] 256%N])).
Proof.
  apply (construct_get_sign_in_sequence mockLedger.ledger [0; 256]%N
           mockLedger.newMockLedger [] (answerOf [0; 256]%N).1.1
           (answerOf [0; 256]%N).2 1 (mockLedger.generate 0) 256%N
           [x01] [x02]
           (String.list_byte_of_string "mock-hash-signature", None)
           (String.list_byte_of_string "mock-signature", None)
           (answerOf [0; 256]%N).2 (answerOf [0; 256]%N).2).
  - discriminate.
  - vm_compute. reflexivity.
  - reflexivity.
  - split; [vm_compute; reflexivity|].
    intros [|[|[|j]]] Hlt; try lia; discriminate.
  - reflexivity.
  - reflexivity.
  - reflexivity.
Defined.

(** ** The stand-in device over its life *)

Lemma mockAfter_consistent (m : mockLedger.t) (c : Call) :
  cacheConsistent m → cacheConsistent (mockAfter m c).
Proof.
  intros Hm. destruct c as [hrp i|h i|h i|raw ixs|ixs|]; simpl; try done.
  - by destruct (mock_Address_spec hrp i m Hm) as (m' & -> & Hm' & _).
  - by destruct (mock_GetAddresses_spec ixs m Hm) as (m' & -> & Hm' & _).
Qed.

(** X12. Whatever calls a fresh stand-in has received, in whatever order,
    its addresses are a function of the index alone: [Address] answers
    with the address generated for the index and [GetAddresses] with those
    generated for the indices, in order, without error. *)
Theorem mock_addresses_depend_on_index_only (calls : list Call)
    (hrp : string) (idx : uint32) (indices : list uint32) :
  let m := foldl mockAfter mockLedger.newMockLedger calls in
  (mockLedger.Address hrp idx m).1 = (mockLedger.generate idx, None) ∧
  (mockLedger.GetAddresses indices m).1
  = (mockLedger.generate <$> indices, None).
Proof.
  intros m.
  assert (cacheConsistent m) as Hm.
  { subst m. induction calls as [|c calls IH] using rev_ind.
    - apply cacheConsistent_new.
    - rewrite foldl_app. simpl. by apply mockAfter_consistent. }
  split.
  - by destruct (mock_Address_spec hrp idx m Hm) as (m' & -> & _).
  - by destruct (mock_GetAddresses_spec indices m Hm) as (m' & -> & _).
Qed.
